(** * Relay's header registry (emails/headerregistry.py) and the
      helpers of the site (privaterelay/utils.py)

    A shallow embedding of [RelayMessageIDHeader.parse],
    [RelayHeaderRegistry.__call__] and the module-level
    [relay_header_factory], together with the parts of Python's
    [email] package they are built on.

    The grammar engine of the [email] package ([parse_message_id],
    [get_unstructured], the tokens it produces) is not part of the
    repository.  It is a parameter of the development: every theorem
    holds for every engine. *)

From Stdlib Require Import String Ascii List Bool Arith Lia ZArith QArith.
From stdpp Require Import base strings gmap list.
Import ListNotations.

Local Open Scope string_scope.
Local Open Scope list_scope.

(** ** Exceptions and the outcome of a call *)

(** Python exception classes, with single inheritance: the built-in
    classes that matter here, and [Subclass] for any class derived from
    another one. *)
Inductive ExcClass :=
| BaseException
| Exception
| LookupError
| IndexError
| KeyError
| TypeError
| ValueError
| RecursionError
| HeaderParseError
| Subclass (name : string) (base : ExcClass).

Global Instance ExcClass_eq_dec : EqDecision ExcClass.
Proof. solve_decision. Defined.

(** The method resolution order of an exception class: the class and
    its ancestors. *)
Fixpoint mro (c : ExcClass) : list ExcClass :=
  c :: match c with
       | BaseException => []
       | Exception => [BaseException]
       | LookupError => [Exception; BaseException]
       | IndexError => [LookupError; Exception; BaseException]
       | KeyError => [LookupError; Exception; BaseException]
       | TypeError => [Exception; BaseException]
       | ValueError => [Exception; BaseException]
       | RecursionError => [Exception; BaseException]
       | HeaderParseError => [Exception; BaseException]
       | Subclass _ base => mro base
       end.

Definition issubclass (c d : ExcClass) : bool :=
  bool_decide (d ∈ mro c).

Record PyExc := { exc_class : ExcClass; exc_msg : string }.

Definition isinstance (e : PyExc) (c : ExcClass) : bool :=
  issubclass (exc_class e) c.

(** A call either returns a value or raises. *)
Inductive Outcome (A : Type) :=
| Return (a : A)
| Raise (e : PyExc).
Arguments Return {A} a.
Arguments Raise {A} e.

Definition bind {A B : Type} (m : Outcome A) (k : A -> Outcome B) : Outcome B :=
  match m with
  | Return a => k a
  | Raise e => Raise e
  end.

Notation "x <- m ;; k" := (bind m (fun x => k))
  (at level 100, m at next level, right associativity).

(** [try: body except c: handler]: the handler runs when [body] raises
    an instance of [c]; any other exception goes on to the caller. *)
Definition try_except {A : Type} (body : Outcome A) (c : ExcClass)
    (handler : Outcome A) : Outcome A :=
  match body with
  | Return a => Return a
  | Raise e => if isinstance e c then handler else Raise e
  end.

(** ** Defects *)

Inductive DefectClass :=
| InvalidHeaderDefect
| OtherDefect (name : string).

Record Defect := { defect_class : DefectClass; defect_msg : string }.

(** ** Token lists *)

(** The classes of token list that the registry sees at the top of a
    parse tree.  None of them overrides [__str__] or [all_defects]. *)
Inductive TokenListClass :=
| UnstructuredTokenList
| MessageID
| InvalidMessageID.

Definition token_type (c : TokenListClass) : string :=
  match c with
  | UnstructuredTokenList => "unstructured"
  | MessageID => "message-id"
  | InvalidMessageID => "invalid-message-id"
  end.

(** A [TokenList] is a Python list of tokens that also carries its own
    [defects] list. *)
Record TokenList (Token : Type) := {
  tl_class : TokenListClass;
  tl_items : list Token;
  tl_defects : list Defect
}.
Arguments tl_class {Token} _.
Arguments tl_items {Token} _.
Arguments tl_defects {Token} _.

(** ** The grammar engine *)

(** Modelled from the spec: the Grammar Parser Library, an external
    collaborator whose code (Python's [email._header_value_parser] and
    [email.utils]) is missing from the repository.  Its parsers return a
    parse tree with defects; the message-id parser may also raise; the
    unstructured grammar accepts any input.  The tokens inside a tree
    are only rendered and asked for their defects. *)
Class GrammarEngine := {
  Token : Type;
  (** [str(token)] *)
  token_str : Token -> string;
  (** [token.all_defects] *)
  token_all_defects : Token -> list Defect;
  (** [email._header_value_parser.get_unstructured] *)
  get_unstructured : string -> TokenList Token;
  (** [email._header_value_parser.parse_message_id] *)
  parse_message_id : string -> Outcome (TokenList Token);
  (** the surrogate clean-up that the library's header constructor
      applies to the decoded text before storing it; the identity when
      the constructor stores the text as it is *)
  sanitize : string -> string
}.

(** ASCII [str.lower()]: header field names are printable ASCII. *)
Definition ascii_lower (c : ascii) : ascii :=
  let n := nat_of_ascii c in
  if ((65 <=? n) && (n <=? 90))%nat then ascii_of_nat (n + 32)%nat else c.

Fixpoint lower (s : string) : string :=
  match s with
  | EmptyString => EmptyString
  | String c s' => String (ascii_lower c) (lower s')
  end.

Section Registry.

Context {E : GrammarEngine}.

(** Modelled from the spec: [TokenList.__str__] of the missing library,
    the string form of a tree: the string forms of its tokens joined. *)
Definition tl_str (t : TokenList Token) : string :=
  String.concat "" (map token_str (tl_items t)).

(** Modelled from the spec: [TokenList.all_defects] of the missing
    library, the defects accumulated in a tree: the list's own defects
    followed by those of its tokens, in order. *)
Definition tl_all_defects (t : TokenList Token) : list Defect :=
  tl_defects t ++ concat (map token_all_defects (tl_items t)).

(** Modelled from the spec: the constructor [InvalidMessageID(token)]
    of the missing library, the invalid message-id node that wraps a
    fallback tree.  A token list is a list: built from another list it
    takes over its items, and it starts with an empty [defects]. *)
Definition InvalidMessageID_new (token : TokenList Token) : TokenList Token :=
  {| tl_class := InvalidMessageID;
     tl_items := tl_items token;
     tl_defects := [] |}.

(** [tokens.defects.append(d)] *)
Definition defects_append (t : TokenList Token) (d : Defect) : TokenList Token :=
  {| tl_class := tl_class t;
     tl_items := tl_items t;
     tl_defects := tl_defects t ++ [d] |}.

(** ** The [kwds] accumulator *)

(** The dictionary that [parse] fills in: a key is either absent or
    bound. *)
Record Kwds := {
  kw_parse_tree : option (TokenList Token);
  kw_decoded : option string;
  kw_defects : option (list Defect)
}.

Definition set_parse_tree (k : Kwds) (t : TokenList Token) : Kwds :=
  {| kw_parse_tree := Some t;
     kw_decoded := kw_decoded k;
     kw_defects := kw_defects k |}.

Definition set_decoded (k : Kwds) (s : string) : Kwds :=
  {| kw_parse_tree := kw_parse_tree k;
     kw_decoded := Some s;
     kw_defects := kw_defects k |}.

(** [kwds["defects"].extend(ds)]: a [KeyError] when the key is absent. *)
Definition defects_extend (k : Kwds) (ds : list Defect) : Outcome Kwds :=
  match kw_defects k with
  | Some old =>
      Return {| kw_parse_tree := kw_parse_tree k;
                kw_decoded := kw_decoded k;
                kw_defects := Some (old ++ ds) |}
  | None => Raise {| exc_class := KeyError; exc_msg := "defects" |}
  end.

(** ** Header classes *)

(** A header (parser) class: its name and its [parse] class method,
    which fills in the accumulator or raises. *)
Record HeaderClass := {
  cls_name : string;
  cls_parse : string -> Kwds -> Outcome Kwds
}.

(** Modelled from the spec: [UnstructuredHeader.parse] of the missing
    library, the unstructured parser class: the tree of the unstructured
    grammar and its string form. *)
Definition UnstructuredHeader_parse (value : string) (kwds : Kwds) : Outcome Kwds :=
  let parse_tree := get_unstructured value in
  let kwds := set_parse_tree kwds parse_tree in
  Return (set_decoded kwds (tl_str parse_tree)).

Definition UnstructuredHeader : HeaderClass :=
  {| cls_name := "UnstructuredHeader";
     cls_parse := UnstructuredHeader_parse |}.

(** [MessageIDHeader.value_parser], inherited by
    [RelayMessageIDHeader]. *)
Definition value_parser : string -> Outcome (TokenList Token) :=
  parse_message_id.

(** The defect recorded on the fallback path. *)
Definition fallback_defect (value : string) : Defect :=
  {| defect_class := InvalidHeaderDefect;
     defect_msg := "IndexError for invalid msg-id in '" ++ value ++ "'" |}.

(** [RelayMessageIDHeader.parse] *)
Definition RelayMessageIDHeader_parse (value : string) (kwds : Kwds) : Outcome Kwds :=
  parse_tree <-
    try_except (value_parser value) IndexError
      (let token := get_unstructured value in
       let message_id := InvalidMessageID_new token in
       let message_id := defects_append message_id (fallback_defect value) in
       Return message_id) ;;
  let kwds := set_parse_tree kwds parse_tree in
  let kwds := set_decoded kwds (tl_str parse_tree) in
  defects_extend kwds (tl_all_defects parse_tree).

Definition RelayMessageIDHeader : HeaderClass :=
  {| cls_name := "RelayMessageIDHeader";
     cls_parse := RelayMessageIDHeader_parse |}.

(** The tree that the fallback path builds. *)
Definition fallback_tree (value : string) : TokenList Token :=
  defects_append (InvalidMessageID_new (get_unstructured value))
    (fallback_defect value).

(** ** Header instances *)

Record HeaderFields := {
  h_class : string;
  h_name : string;
  h_decoded : string;
  h_parse_tree : TokenList Token;
  h_defects : list Defect
}.

(** A header object: its fields and the [as_unstructured] attribute,
    absent until it is set.  The attribute holds a header object on
    which the attribute itself is never set: its fields. *)
Record Header := {
  fields : HeaderFields;
  as_unstructured : option HeaderFields
}.

(** [header_instance.as_unstructured = view] *)
Definition set_as_unstructured (h view : Header) : Header :=
  {| fields := fields h; as_unstructured := Some (fields view) |}.

Definition decoded (h : Header) : string := h_decoded (fields h).
Definition parse_tree (h : Header) : TokenList Token := h_parse_tree (fields h).
Definition defects (h : Header) : list Defect := h_defects (fields h).

Definition empty_kwds : Kwds :=
  {| kw_parse_tree := None; kw_decoded := None; kw_defects := Some [] |}.

(** Modelled from the spec: [BaseHeader.__new__] of the missing library,
    the construction of a header object from a parser class: [parse]
    populates parse_tree, decoded and defects, starting from an empty
    defects list, and the instance keeps this result and the name. *)
Definition BaseHeader_new (cls : HeaderClass) (name value : string) : Outcome Header :=
  kwds <- cls_parse cls value empty_kwds ;;
  match kw_decoded kwds with
  | None => Raise {| exc_class := KeyError; exc_msg := "decoded" |}
  | Some text =>
      match kw_parse_tree kwds, kw_defects kwds with
      | Some parse_tree, Some defects =>
          Return {| fields := {| h_class := cls_name cls;
                                 h_name := name;
                                 h_decoded := sanitize text;
                                 h_parse_tree := parse_tree;
                                 h_defects := defects |};
                    as_unstructured := None |}
      | _, _ => Raise {| exc_class := TypeError; exc_msg := "init" |}
      end
  end.

(** The decoded string of a header that the unstructured parser class
    builds on its own from a raw value. *)
Definition unstructured_decoding (value : string) : string :=
  sanitize (tl_str (get_unstructured value)).

(** The header object that the unstructured parser class builds. *)
Definition unstructured_header (cname name value : string) : Header :=
  {| fields := {| h_class := cname;
                  h_name := name;
                  h_decoded := unstructured_decoding value;
                  h_parse_tree := get_unstructured value;
                  h_defects := [] |};
     as_unstructured := None |}.

(** The header that the registry builds for a message-id name out of
    the tree [t] produced by the resilient parser. *)
Definition message_id_header (name value : string) (t : TokenList Token) : Header :=
  {| fields := {| h_class := "_RelayMessageIDHeader";
                  h_name := name;
                  h_decoded := sanitize (tl_str t);
                  h_parse_tree := t;
                  h_defects := tl_all_defects t |};
     as_unstructured :=
       Some (fields (unstructured_header "_UnstructuredHeader" name value)) |}.

(** ** The registry *)

Record HeaderRegistry := {
  registry : gmap string HeaderClass;
  default_class : HeaderClass
}.

(** [type(name, (cls, self.base_class), {})]: a class with the given
    name whose [parse] is the one of [cls]; [base_class] is the
    library's [BaseHeader], which contributes [__new__]. *)
Definition type_ (name : string) (cls : HeaderClass) : HeaderClass :=
  {| cls_name := name; cls_parse := cls_parse cls |}.

(** Modelled from the spec: [HeaderRegistry.map_to_type] of the missing
    library, the [register] operation: it associates the name, case
    folded, with the class and overwrites any prior association. *)
Definition map_to_type (self : HeaderRegistry) (name : string) (cls : HeaderClass)
    : HeaderRegistry :=
  {| registry := <[lower name := cls]> (registry self);
     default_class := default_class self |}.

(** Modelled from the spec: the look-up of step 1 of [construct]
    ([HeaderRegistry.__getitem__] of the missing library): the class
    registered for the case-folded name, or the default class. *)
Definition resolve (self : HeaderRegistry) (name : string) : HeaderClass :=
  default (default_class self) (registry self !! lower name).

Definition HeaderRegistry_getitem (self : HeaderRegistry) (name : string) : HeaderClass :=
  let cls := resolve self name in
  type_ ("_" ++ cls_name cls) cls.

(** Modelled from the spec: step 2 of [construct]
    ([HeaderRegistry.__call__] of the missing library): build the base
    header object with the resolved class. *)
Definition HeaderRegistry_call (self : HeaderRegistry) (name value : string)
    : Outcome Header :=
  BaseHeader_new (HeaderRegistry_getitem self name) name value.

(** [RelayHeaderRegistry.__call__] *)
Definition RelayHeaderRegistry_call (self : HeaderRegistry) (name value : string)
    : Outcome Header :=
  header_instance <- HeaderRegistry_call self name value ;;
  let as_unstructured_cls := type_ "_UnstructuredHeader" UnstructuredHeader in
  view <- BaseHeader_new as_unstructured_cls name value ;;
  Return (set_as_unstructured header_instance view).

(** The header classes that the library registers by default
    ([use_default_map]); they are the library's, hence a parameter. *)
Variable default_header_map : gmap string HeaderClass.

(** [RelayHeaderRegistry()]: the library's defaults. *)
Definition RelayHeaderRegistry_init : HeaderRegistry :=
  {| registry := default_header_map;
     default_class := UnstructuredHeader |}.

(** [relay_header_factory], with [registry["message-id"]] assigned. *)
Definition relay_header_factory : HeaderRegistry :=
  let self := RelayHeaderRegistry_init in
  {| registry := <["message-id" := RelayMessageIDHeader]> (registry self);
     default_class := default_class self |}.

(** ** Sessions: registrations and constructions in sequence *)

Inductive Op :=
| Register (name : string) (cls : HeaderClass)
| Construct (name value : string).

(** One operation on the registry: the registry afterwards and, for a
    construction, its outcome. *)
Definition step (self : HeaderRegistry) (op : Op)
    : HeaderRegistry * option (Outcome Header) :=
  match op with
  | Register name cls => (map_to_type self name cls, None)
  | Construct name value => (self, Some (RelayHeaderRegistry_call self name value))
  end.

Fixpoint run (self : HeaderRegistry) (ops : list Op)
    : HeaderRegistry * list (Outcome Header) :=
  match ops with
  | [] => (self, [])
  | op :: ops' =>
      let '(self', out) := step self op in
      let '(self'', outs) := run self' ops' in
      (self'', match out with Some o => o :: outs | None => outs end)
  end.


End Registry.

(** ** A scripted engine

    An engine to run the registry on: its tokens are terminals, the
    unstructured grammar makes one [vtext] terminal of a non-empty
    value, and the message-id parser answers from a script of outcomes
    (for a value outside the script, the engine's own invalid
    message-id tree). *)

Record Terminal := {
  term_text : string;
  term_type : string;
  term_defects : list Defect
}.

Definition ValueTerminal (text type : string) : Terminal :=
  {| term_text := text; term_type := type; term_defects := [] |}.

Definition scripted_unstructured (value : string) : TokenList Terminal :=
  {| tl_class := UnstructuredTokenList;
     tl_items := match value with
                 | EmptyString => []
                 | _ => [ValueTerminal value "vtext"]
                 end;
     tl_defects := [] |}.

Fixpoint script_lookup {A : Type} (value : string) (script : list (string * A))
    : option A :=
  match script with
  | [] => None
  | (v, a) :: rest =>
      if String.eqb v value then Some a else script_lookup value rest
  end.

Definition scripted_engine
    (script : list (string * Outcome (TokenList Terminal))) : GrammarEngine :=
  {| Token := Terminal;
     token_str := term_text;
     token_all_defects := term_defects;
     get_unstructured := scripted_unstructured;
     parse_message_id := fun value =>
       match script_lookup value script with
       | Some outcome => outcome
       | None =>
           Return {| tl_class := InvalidMessageID;
                     tl_items := tl_items (scripted_unstructured value);
                     tl_defects :=
                       [{| defect_class := InvalidHeaderDefect;
                           defect_msg := "Invalid msg-id" |}] |}
       end;
     sanitize := fun text => text |}.

(** The tree of a well-formed message-id: the five terminals of
    [<id-left@id-right>]. *)
Definition msg_id_tree (left right : string) : TokenList Terminal :=
  {| tl_class := MessageID;
     tl_items := [ValueTerminal "<" "msg-id-start";
                  ValueTerminal left "atext";
                  ValueTerminal "@" "address-at-symbol";
                  ValueTerminal right "atext";
                  ValueTerminal ">" "msg-id-end"];
     tl_defects := [] |}.

(** The script of the demonstration engine: a value on which the
    message-id parser crashes with an [IndexError], a well-formed
    message-id, and a value on which it fails with another class of
    error. *)
Definition demo_script : list (string * Outcome (TokenList Terminal)) :=
  [("<a(b",
    Raise {| exc_class := IndexError; exc_msg := "list index out of range" |});
   ("<abc123@example.com>",
    Return (msg_id_tree "abc123" "example.com"));
   ("<((((x",
    Raise {| exc_class := RecursionError;
             exc_msg := "maximum recursion depth exceeded" |})].

Definition demo_engine : GrammarEngine := scripted_engine demo_script.

(** * Helpers of the site (privaterelay/utils.py)

    Python text is a string of bytes here, the text of an HTTP header;
    [lower] is [str.lower()] on ASCII text.  The properties of the
    functions below are stated for ASCII text ([isascii]), on which the
    two agree. *)

(** [str.isascii()] *)
Fixpoint isascii (s : string) : bool :=
  match s with
  | EmptyString => true
  | String c s' => (nat_of_ascii c <? 128)%nat && isascii s'
  end.

(** [bool(s)] for a string: the empty string is false. *)
Definition str_bool (s : string) : bool :=
  match s with
  | EmptyString => false
  | String _ _ => true
  end.

(** [sep in s] for a one-character string [sep]. *)
Fixpoint str_in (sep : ascii) (s : string) : bool :=
  match s with
  | EmptyString => false
  | String c s' => Ascii.eqb c sep || str_in sep s'
  end.

(** [s.split(sep)] for a one-character string [sep]: the pieces between
    the occurrences of [sep], empty pieces included; one piece at
    least. *)
Fixpoint str_split (sep : ascii) (s : string) : list string :=
  match s with
  | EmptyString => [EmptyString]
  | String c s' =>
      if Ascii.eqb c sep then EmptyString :: str_split sep s'
      else match str_split sep s' with
           | piece :: pieces => String c piece :: pieces
           | [] => [String c EmptyString]
           end
  end.

(** [l[i]]: an [IndexError] out of range. *)
Definition list_getitem {A : Type} (l : list A) (i : nat) : Outcome A :=
  match l !! i with
  | Some a => Return a
  | None => Raise {| exc_class := IndexError;
                     exc_msg := "list index out of range" |}
  end.

(** [key in d] *)
Definition dict_contains {V : Type} (d : gmap string V) (key : string) : bool :=
  match d !! key with
  | Some _ => true
  | None => false
  end.

(** [d[key]]: a [KeyError] when the key is absent. *)
Definition dict_getitem {V : Type} (d : gmap string V) (key : string) : Outcome V :=
  match d !! key with
  | Some v => Return v
  | None => Raise {| exc_class := KeyError; exc_msg := key |}
  end.

(** [d.get(key, fallback)] *)
Definition dict_get {V : Type} (d : gmap string V) (key : string) (fallback : V) : V :=
  match d !! key with
  | Some v => v
  | None => fallback
  end.

(** ** The country of a request *)

Definition _PRIMARY_LANGUAGE_TO_COUNTRY : gmap string string :=
  {[ "en" := "us" ]}.

(** [guess_country_from_accept_lang] *)
Definition guess_country_from_accept_lang (accept_lang : string) : Outcome string :=
  rawlang <- list_getitem (str_split "," accept_lang) 0 ;;
  let subtags :=
    if str_bool rawlang && str_in "-" rawlang
    then str_split "-" rawlang
    else [rawlang] in
  if (2 <=? length subtags)%nat then
    region <- list_getitem subtags 1 ;;
    Return (lower region)
  else
    tag <- list_getitem subtags 0 ;;
    let lang := lower tag in
    Return (dict_get _PRIMARY_LANGUAGE_TO_COUNTRY lang lang).

(** A request, as far as the helpers read it: its [headers] mapping. *)
Record HttpRequest := { headers : gmap string string }.

(** [_get_cc_from_request] *)
Definition _get_cc_from_request (request : HttpRequest) : Outcome string :=
  if dict_contains (headers request) "X-Client-Region" then
    region <- dict_getitem (headers request) "X-Client-Region" ;;
    Return (lower region)
  else if dict_contains (headers request) "Accept-Language" then
    accept_lang <- dict_getitem (headers request) "Accept-Language" ;;
    guess_country_from_accept_lang accept_lang
  else Return "us".

(** The dictionary that [get_countries_info_from_request_and_mapping]
    returns; [countries] is the key view of the mapping. *)
Record CountriesInfo (V : Type) := {
  country_code : string;
  countries : gset string;
  available_in_country : bool;
  plan_country_lang_mapping : gmap string V
}.
Arguments country_code {V} _.
Arguments countries {V} _.
Arguments available_in_country {V} _.
Arguments plan_country_lang_mapping {V} _.

(** [get_countries_info_from_request_and_mapping] *)
Definition get_countries_info_from_request_and_mapping {V : Type}
    (request : HttpRequest) (mapping : gmap string V) : Outcome (CountriesInfo V) :=
  country_code <- _get_cc_from_request request ;;
  let countries := dom mapping in
  let available_in_country := bool_decide (country_code ∈ countries) in
  Return {| country_code := country_code;
            countries := countries;
            available_in_country := available_in_country;
            plan_country_lang_mapping := mapping |}.

(** ** Waffle flags in a task *)

(** A flag of the waffle flag model, as far as the check reads it: its
    primary key ([None] for a flag that is not in the database), the
    [everyone] override and the [percent] of the roll-out, a decimal
    number. *)
Record Flag := {
  flag_name : string;
  pk : option Z;
  everyone : option bool;
  percent : option Q
}.

(** The waffle settings that the check reads with
    [get_waffle_setting]. *)
Record WaffleSettings := {
  LOG_MISSING_FLAGS : option Z;
  CREATE_MISSING_FLAGS : bool;
  FLAG_DEFAULT : bool
}.

(** What the check does besides answering, in order. *)
Inductive Effect :=
| LoggerLog (level : Z) (name : string)
| GetOrCreate (name : string) (default_everyone : bool)
| CacheSet (name : string)
| RandomUniform.

(** [bool(flag.pk)]: neither [None] nor zero. *)
Definition pk_bool (key : option Z) : bool :=
  match key with
  | Some k => negb (k =? 0)%Z
  | None => false
  end.

(** [flag.percent and flag.percent > 0], for a percent that is not
    [None]: a decimal zero is false. *)
Definition percent_positive (p : Q) : bool :=
  negb (Qeq_bool p 0) && negb (Qle_bool p 0).

Section Waffle.

(** The collaborators of the check: the user model, the look-up of a
    flag by name ([get_waffle_flag_model().get]), the user and group
    check of the flag model ([flag.is_active_for_user], which answers
    [None] when it does not decide) and the settings. *)
Variable User : Type.
Variable Flag_get : string -> Flag.
Variable is_active_for_user : Flag -> User -> option bool.
Variable waffle_settings : WaffleSettings.

(** [flag_is_active_in_task].  [draw] is the decimal number that
    [Decimal(str(random.uniform(0, 100)))] yields when it is evaluated.
    The answer is [Some b] for a Python [bool] and [None] for Python's
    [None], which the function returns when it reaches its end. *)
Definition flag_is_active_in_task (draw : Q) (flag_name : string)
    (user : option User) : option bool * list Effect :=
  let flag := Flag_get flag_name in
  if negb (pk_bool (pk flag)) then
    let logged :=
      match LOG_MISSING_FLAGS waffle_settings with
      | Some log_level =>
          if negb (log_level =? 0)%Z then [LoggerLog log_level flag_name] else []
      | None => []
      end in
    let created :=
      if CREATE_MISSING_FLAGS waffle_settings
      then [GetOrCreate flag_name (FLAG_DEFAULT waffle_settings);
            CacheSet flag_name]
      else [] in
    (Some (FLAG_DEFAULT waffle_settings), logged ++ created)
  else
    match everyone flag with
    | Some true => (Some true, [])
    | Some false => (Some false, [])
    | None =>
        let active_for_user :=
          match user with
          | Some u => is_active_for_user flag u
          | None => None
          end in
        match active_for_user with
        | Some b => (Some b, [])
        | None =>
            match percent flag with
            | Some p =>
                if percent_positive p then
                  if Qle_bool draw p then (Some true, [RandomUniform])
                  else (None, [RandomUniform])
                else (None, [])
            | None => (None, [])
            end
        end
    end.

End Waffle.

(** A flag model to run the check on: a flag for everyone, a flag
    rolled out to a quarter of the draws, and no other flag; the user
    check knows the user 7. *)
Definition demo_flag_get (name : string) : Flag :=
  if String.eqb name "everyone_on" then
    {| flag_name := name; pk := Some 1%Z; everyone := Some true; percent := None |}
  else if String.eqb name "rollout" then
    {| flag_name := name; pk := Some 2%Z; everyone := None;
       percent := Some (25 # 1) |}
  else
    {| flag_name := name; pk := None; everyone := None; percent := None |}.

Definition demo_user_check (flag : Flag) (user : nat) : option bool :=
  if (user =? 7)%nat then Some true else None.

Definition demo_waffle_settings : WaffleSettings :=
  {| LOG_MISSING_FLAGS := Some 30%Z;
     CREATE_MISSING_FLAGS := true;
     FLAG_DEFAULT := false |}.

(** * Properties *)

Section Properties.

Context {E : GrammarEngine}.
Variable default_header_map : gmap string HeaderClass.

(** ** Exceptions *)

Lemma issubclass_refl (c : ExcClass) : issubclass c c = true.
Proof.
  unfold issubclass. apply bool_decide_eq_true.
  destruct c; simpl; left.
Qed.

(** [except IndexError] catches the class and what derives from it,
    not its siblings and not its ancestors. *)
Example except_IndexError_scope :
  isinstance {| exc_class := IndexError; exc_msg := "" |} IndexError = true /\
  isinstance {| exc_class := Subclass "TokenIndexError" IndexError;
                exc_msg := "" |} IndexError = true /\
  isinstance {| exc_class := KeyError; exc_msg := "" |} IndexError = false /\
  isinstance {| exc_class := LookupError; exc_msg := "" |} IndexError = false /\
  isinstance {| exc_class := HeaderParseError; exc_msg := "" |} IndexError = false.
Proof. repeat split. Qed.

Lemma try_except_return {A : Type} (body handler : Outcome A) c a :
  body = Return a -> try_except body c handler = Return a.
Proof. intros ->. reflexivity. Qed.

Lemma try_except_caught {A : Type} (body handler : Outcome A) c e :
  body = Raise e -> isinstance e c = true ->
  try_except body c handler = handler.
Proof. intros -> He. simpl. rewrite He. reflexivity. Qed.

Lemma try_except_passed {A : Type} (body handler : Outcome A) c e :
  body = Raise e -> isinstance e c = false ->
  try_except body c handler = Raise e.
Proof. intros -> He. simpl. rewrite He. reflexivity. Qed.

(** ** The resilient parser, path by path *)

Lemma fallback_tree_str value :
  tl_str (fallback_tree value) = tl_str (get_unstructured value).
Proof. reflexivity. Qed.

Lemma fallback_tree_all_defects value :
  tl_all_defects (fallback_tree value) =
  fallback_defect value ::
    concat (map token_all_defects (tl_items (get_unstructured value))).
Proof. reflexivity. Qed.

Lemma parse_success value kwds old t :
  kw_defects kwds = Some old ->
  value_parser value = Return t ->
  RelayMessageIDHeader_parse value kwds =
  Return {| kw_parse_tree := Some t;
            kw_decoded := Some (tl_str t);
            kw_defects := Some (old ++ tl_all_defects t) |}.
Proof.
  intros Hold Hv. unfold RelayMessageIDHeader_parse.
  rewrite (try_except_return _ _ _ _ Hv). simpl.
  unfold defects_extend. simpl. rewrite Hold. reflexivity.
Qed.

Lemma parse_fallback value kwds old e :
  kw_defects kwds = Some old ->
  value_parser value = Raise e ->
  isinstance e IndexError = true ->
  RelayMessageIDHeader_parse value kwds =
  Return {| kw_parse_tree := Some (fallback_tree value);
            kw_decoded := Some (tl_str (fallback_tree value));
            kw_defects := Some (old ++ tl_all_defects (fallback_tree value)) |}.
Proof.
  intros Hold Hv He. unfold RelayMessageIDHeader_parse.
  rewrite (try_except_caught _ _ _ _ Hv He). simpl.
  unfold defects_extend. simpl. rewrite Hold. reflexivity.
Qed.

Lemma parse_propagates value kwds e :
  value_parser value = Raise e ->
  isinstance e IndexError = false ->
  RelayMessageIDHeader_parse value kwds = Raise e.
Proof.
  intros Hv He. unfold RelayMessageIDHeader_parse.
  rewrite (try_except_passed _ _ _ _ Hv He). reflexivity.
Qed.

(** ** Construction, step by step *)

Lemma BaseHeader_new_unstructured cname name value :
  BaseHeader_new (type_ cname UnstructuredHeader) name value =
  Return (unstructured_header cname name value).
Proof. reflexivity. Qed.

Lemma RelayHeaderRegistry_call_eq self name value :
  RelayHeaderRegistry_call self name value =
  match HeaderRegistry_call self name value with
  | Return h =>
      Return (set_as_unstructured h
                (unstructured_header "_UnstructuredHeader" name value))
  | Raise e => Raise e
  end.
Proof.
  unfold RelayHeaderRegistry_call.
  destruct (HeaderRegistry_call self name value); reflexivity.
Qed.

Lemma BaseHeader_new_raise cls name value e :
  cls_parse cls value empty_kwds = Raise e ->
  BaseHeader_new cls name value = Raise e.
Proof. intros H. unfold BaseHeader_new. rewrite H. reflexivity. Qed.

Lemma resolve_message_id name :
  lower name = "message-id" ->
  resolve (relay_header_factory default_header_map) name = RelayMessageIDHeader.
Proof.
  intros Hn. unfold resolve, relay_header_factory. simpl.
  rewrite Hn, lookup_insert_eq. reflexivity.
Qed.

Lemma construct_message_id name value kwds t :
  lower name = "message-id" ->
  RelayMessageIDHeader_parse value empty_kwds = Return kwds ->
  kwds = {| kw_parse_tree := Some t;
            kw_decoded := Some (tl_str t);
            kw_defects := Some ([] ++ tl_all_defects t) |} ->
  RelayHeaderRegistry_call (relay_header_factory default_header_map) name value =
  Return (message_id_header name value t).
Proof.
  intros Hn Hp ->. rewrite RelayHeaderRegistry_call_eq.
  unfold HeaderRegistry_call, HeaderRegistry_getitem.
  rewrite (resolve_message_id _ Hn).
  unfold BaseHeader_new. simpl cls_parse. rewrite Hp. reflexivity.
Qed.

Lemma construct_message_id_raise name value e :
  lower name = "message-id" ->
  RelayMessageIDHeader_parse value empty_kwds = Raise e ->
  RelayHeaderRegistry_call (relay_header_factory default_header_map) name value = Raise e.
Proof.
  intros Hn Hp. rewrite RelayHeaderRegistry_call_eq.
  unfold HeaderRegistry_call, HeaderRegistry_getitem.
  rewrite (resolve_message_id _ Hn).
  rewrite (BaseHeader_new_raise _ _ _ e); [reflexivity | exact Hp].
Qed.

(** ** Sessions *)



(** ** The resilient Message-ID parser *)

(** C5: after the resilient parser has run, on the success path as on
    the fallback path, [decoded] is the string form of the tree that
    was produced and [defects] holds what it held before followed by
    all the defects of that tree; on the fallback path the fallback
    defect is among them.  The parser returns on every value on which
    the engine returns or raises an [IndexError]. *)
Theorem parse_postcondition value kwds old :
  kw_defects kwds = Some old ->
  (forall e, value_parser value = Raise e -> isinstance e IndexError = true) ->
  exists t,
    RelayMessageIDHeader_parse value kwds =
    Return {| kw_parse_tree := Some t;
              kw_decoded := Some (tl_str t);
              kw_defects := Some (old ++ tl_all_defects t) |} /\
    (value_parser value = Return t \/
     (exists e, value_parser value = Raise e) /\
     t = fallback_tree value /\
     In (fallback_defect value) (old ++ tl_all_defects t)).
Proof.
  intros Hold Hidx. destruct (value_parser value) as [t|e] eqn:Hv.
  - exists t. split; [| left; reflexivity].
    apply parse_success; assumption.
  - exists (fallback_tree value). split.
    + apply (parse_fallback value kwds old e); auto.
    + right. split; [eauto | split; [reflexivity |]].
      apply in_or_app. right. rewrite fallback_tree_all_defects. left. reflexivity.
Qed.

(** C10: on the fallback path exactly one defect is appended to the
    fallback tree, an [InvalidHeaderDefect] whose message is the fixed
    text, the raw value as it is and a closing quote; the accumulator
    receives it followed by the defects of the unstructured tokens. *)
Theorem fallback_defect_exact value kwds old e :
  kw_defects kwds = Some old ->
  value_parser value = Raise e ->
  isinstance e IndexError = true ->
  exists kwds' t,
    RelayMessageIDHeader_parse value kwds = Return kwds' /\
    kw_parse_tree kwds' = Some t /\
    tl_defects t =
      [{| defect_class := InvalidHeaderDefect;
          defect_msg := "IndexError for invalid msg-id in '" ++ value ++ "'" |}] /\
    kw_defects kwds' =
      Some (old ++
            {| defect_class := InvalidHeaderDefect;
               defect_msg := "IndexError for invalid msg-id in '" ++ value ++ "'" |}
            :: concat (map token_all_defects (tl_items (get_unstructured value)))).
Proof.
  intros Hold Hv He.
  eexists _, (fallback_tree value). split.
  - apply (parse_fallback value kwds old e); assumption.
  - simpl. repeat split.
Qed.

(** C3: the resilient parser recovers from [IndexError] only.  A
    failure of any other class raised by the engine's message-id parser
    is raised by [parse], and by the construction of a message-id
    header, unchanged; and whenever [parse] returns, the engine either
    returned or raised an [IndexError]. *)
Theorem only_index_error_recovered value :
  (forall e kwds,
     value_parser value = Raise e ->
     isinstance e IndexError = false ->
     RelayMessageIDHeader_parse value kwds = Raise e /\
     forall name, lower name = "message-id" ->
       RelayHeaderRegistry_call (relay_header_factory default_header_map)
         name value = Raise e) /\
  (forall kwds kwds',
     RelayMessageIDHeader_parse value kwds = Return kwds' ->
     (exists t, value_parser value = Return t) \/
     (exists e, value_parser value = Raise e /\ isinstance e IndexError = true)).
Proof.
  split.
  - intros e kwds Hv He. split.
    + apply parse_propagates; assumption.
    + intros name Hn. apply construct_message_id_raise; [exact Hn |].
      apply parse_propagates; assumption.
  - intros kwds kwds' Hp.
    destruct (value_parser value) as [t|e] eqn:Hv; [left; eauto |].
    right. exists e. split; [reflexivity |].
    destruct (isinstance e IndexError) eqn:He; [reflexivity |].
    rewrite (parse_propagates value kwds e Hv He) in Hp. discriminate.
Qed.

(** ** The registry *)

Lemma resolve_registered self name name' cls :
  lower name' = lower name ->
  resolve (map_to_type self name cls) name' = cls.
Proof.
  intros Hn. unfold resolve, map_to_type. simpl.
  rewrite Hn, lookup_insert_eq. reflexivity.
Qed.

Lemma resolve_other self name other cls :
  lower other <> lower name ->
  resolve (map_to_type self name cls) other = resolve self other.
Proof.
  intros Hn. unfold resolve, map_to_type. simpl.
  rewrite lookup_insert_ne; [reflexivity | congruence].
Qed.

Lemma resolve_unregistered self other :
  registry self !! lower other = None ->
  resolve self other = default_class self.
Proof. intros Hn. unfold resolve. rewrite Hn. reflexivity. Qed.

Lemma construct_with_unstructured self name value :
  resolve self name = UnstructuredHeader ->
  RelayHeaderRegistry_call self name value =
  Return (set_as_unstructured
            (unstructured_header "_UnstructuredHeader" name value)
            (unstructured_header "_UnstructuredHeader" name value)).
Proof.
  intros Hr. rewrite RelayHeaderRegistry_call_eq.
  unfold HeaderRegistry_call, HeaderRegistry_getitem. rewrite Hr.
  reflexivity.
Qed.

(** C2: the construction of the unstructured view never fails, so
    [construct] fails only when the base construction does, with the
    same error; and every instance that [construct] returns is the base
    instance with an unstructured view set, whose decoded string is the
    one of a header built independently by the unstructured parser
    class from the same raw value. *)
Theorem unstructured_view_total self name value :
  exists independent,
    BaseHeader_new UnstructuredHeader name value = Return independent /\
    match RelayHeaderRegistry_call self name value with
    | Return h =>
        (exists base, HeaderRegistry_call self name value = Return base /\
                      fields h = fields base) /\
        exists view, as_unstructured h = Some view /\
                     h_decoded view = decoded independent /\
                     h_decoded view = unstructured_decoding value
    | Raise e => HeaderRegistry_call self name value = Raise e
    end.
Proof.
  exists (unstructured_header "UnstructuredHeader" name value).
  split; [reflexivity |].
  rewrite RelayHeaderRegistry_call_eq.
  destruct (HeaderRegistry_call self name value) as [base|e]; [| reflexivity].
  split; [exists base; split; reflexivity |].
  eexists. split; [reflexivity |]. split; reflexivity.
Qed.

(** C6: when the [parse] of the resolved parser class raises, the
    construction raises the same error and returns no instance; the
    unstructured parse of step 3 returns on every name and value, and
    whenever the construction raises, the base construction of step 2
    raised that error. *)
Theorem fatal_error_fails_construction self name value :
  (forall e,
     cls_parse (resolve self name) value empty_kwds = Raise e ->
     RelayHeaderRegistry_call self name value = Raise e) /\
  (exists view,
     BaseHeader_new (type_ "_UnstructuredHeader" UnstructuredHeader) name value
     = Return view) /\
  (forall e,
     RelayHeaderRegistry_call self name value = Raise e ->
     HeaderRegistry_call self name value = Raise e).
Proof.
  split; [| split].
  - intros e Hp. rewrite RelayHeaderRegistry_call_eq.
    unfold HeaderRegistry_call.
    rewrite (BaseHeader_new_raise _ _ _ e); [reflexivity | exact Hp].
  - eexists. apply BaseHeader_new_unstructured.
  - intros e. rewrite RelayHeaderRegistry_call_eq.
    destruct (HeaderRegistry_call self name value); [discriminate |].
    intros H. exact H.
Qed.


(** C7: resolution is case-insensitive and override-based.  After a
    class has been registered for a name, any spelling of the name
    resolves to that class and the construction runs its [parse]; a
    later registration for the name replaces an earlier one;
    registering leaves the other names as they were; a name without a
    registration resolves to the default class, which for the relay
    factory is the unstructured parser class, so that the construction
    for such a name returns the unstructured header. *)
Theorem resolution_case_insensitive_override self name name' cls value :
  lower name' = lower name ->
  resolve (map_to_type self name cls) name' = cls /\
  RelayHeaderRegistry_call (map_to_type self name cls) name' value =
    (h <- BaseHeader_new (type_ ("_" ++ cls_name cls) cls) name' value ;;
     Return (set_as_unstructured h
               (unstructured_header "_UnstructuredHeader" name' value))) /\
  (forall earlier,
     map_to_type (map_to_type self name earlier) name' cls =
     map_to_type self name cls) /\
  (forall other,
     lower other <> lower name ->
     resolve (map_to_type self name cls) other = resolve self other) /\
  (forall other,
     registry (map_to_type self name cls) !! lower other = None ->
     resolve (map_to_type self name cls) other = default_class self) /\
  (forall other,
     lower other <> lower name ->
     lower other <> "message-id" ->
     default_header_map !! lower other = None ->
     run (relay_header_factory default_header_map)
       [Register name cls; Construct name' value; Construct other value] =
     (map_to_type (relay_header_factory default_header_map) name cls,
      [RelayHeaderRegistry_call
         (map_to_type (relay_header_factory default_header_map) name cls)
         name' value;
       Return (set_as_unstructured
                 (unstructured_header "_UnstructuredHeader" other value)
                 (unstructured_header "_UnstructuredHeader" other value))])).
Proof.
  intros Hn. repeat apply conj.
  - apply resolve_registered, Hn.
  - rewrite RelayHeaderRegistry_call_eq.
    unfold HeaderRegistry_call, HeaderRegistry_getitem.
    rewrite (resolve_registered _ _ _ _ Hn).
    destruct (BaseHeader_new _ name' value); reflexivity.
  - intros earlier. unfold map_to_type. simpl.
    rewrite Hn, insert_insert_eq. reflexivity.
  - intros other Ho. apply resolve_other, Ho.
  - intros other Ho. rewrite (resolve_unregistered _ _ Ho). reflexivity.
  - intros other Ho Hm Hd. simpl. do 2 f_equal. f_equal.
    apply construct_with_unstructured.
    rewrite resolve_other by exact Ho.
    apply resolve_unregistered. simpl.
    rewrite lookup_insert_ne by congruence. exact Hd.
Qed.

(** ** Message-ID headers of the relay factory *)


(** C4: for a value that the engine's message-id parser accepts, with
    a genuine message-id tree that does not carry the fallback defect,
    the construction returns an instance whose parse tree is that very
    tree, not the fallback, and whose defects are those of the tree:
    the fallback defect is not among them. *)
Theorem well_formed_message_id_passes_through name value t :
  lower name = "message-id" ->
  value_parser value = Return t ->
  tl_class t = MessageID ->
  ~ In (fallback_defect value) (tl_all_defects t) ->
  exists h,
    RelayHeaderRegistry_call (relay_header_factory default_header_map)
      name value = Return h /\
    parse_tree h = t /\
    tl_class (parse_tree h) <> InvalidMessageID /\
    parse_tree h <> fallback_tree value /\
    decoded h = sanitize (tl_str t) /\
    defects h = tl_all_defects t /\
    ~ In (fallback_defect value) (defects h).
Proof.
  intros Hn Hv Hc Hd.
  exists (message_id_header name value t). split.
  { eapply construct_message_id; [exact Hn | | reflexivity].
    apply (parse_success value empty_kwds [] t); auto. }
  split; [reflexivity |].
  split; [change (tl_class t <> InvalidMessageID); rewrite Hc; discriminate |].
  split; [| repeat split; exact Hd].
  change (t <> fallback_tree value). intros ->. discriminate Hc.
Qed.


End Properties.

(** * The properties on the demonstration engine *)

#[local] Existing Instance demo_engine.

(** The registry of the relay factory constructs a header for the
    crash value, a well-formed value and a subject line. *)
Example demo_fallback :
  @RelayHeaderRegistry_call demo_engine
    (relay_header_factory ∅) "Message-ID" "<a(b" =
  Return (message_id_header "Message-ID" "<a(b" (fallback_tree "<a(b")).
Proof. vm_compute. reflexivity. Qed.

Example demo_fallback_decoded :
  @decoded demo_engine
    (message_id_header "Message-ID" "<a(b" (fallback_tree "<a(b")) = "<a(b".
Proof. reflexivity. Qed.

Example demo_subject :
  @RelayHeaderRegistry_call demo_engine
    (relay_header_factory ∅) "Subject" "hello" =
  Return (set_as_unstructured
            (unstructured_header "_UnstructuredHeader" "Subject" "hello")
            (unstructured_header "_UnstructuredHeader" "Subject" "hello")).
Proof. vm_compute. reflexivity. Qed.

Example demo_fatal :
  @RelayHeaderRegistry_call demo_engine
    (relay_header_factory ∅) "message-id" "<((((x" =
  Raise {| exc_class := RecursionError;
           exc_msg := "maximum recursion depth exceeded" |}.
Proof. vm_compute. reflexivity. Qed.


Lemma well_formed_message_id_passes_through_witness :
  @value_parser demo_engine "<abc123@example.com>" =
    Return (msg_id_tree "abc123" "example.com") /\
  exists h,
    @RelayHeaderRegistry_call demo_engine
      (relay_header_factory ∅) "Message-Id" "<abc123@example.com>" = Return h /\
    parse_tree h = msg_id_tree "abc123" "example.com" /\
    tl_class (parse_tree h) <> InvalidMessageID /\
    parse_tree h <> fallback_tree "<abc123@example.com>" /\
    decoded h = "<abc123@example.com>" /\
    defects h = [] /\
    ~ In (fallback_defect "<abc123@example.com>") (defects h).
Proof.
  split; [reflexivity |].
  apply (@well_formed_message_id_passes_through demo_engine ∅
           "Message-Id" "<abc123@example.com>"
           (msg_id_tree "abc123" "example.com")).
  - reflexivity.
  - reflexivity.
  - reflexivity.
  - simpl. intros [].
Defined.

Lemma parse_postcondition_witness :
  exists t,
    @RelayMessageIDHeader_parse demo_engine "<a(b" empty_kwds =
    Return {| kw_parse_tree := Some t;
              kw_decoded := Some (tl_str t);
              kw_defects := Some ([] ++ tl_all_defects t) |} /\
    (@value_parser demo_engine "<a(b" = Return t \/
     (exists e, @value_parser demo_engine "<a(b" = Raise e) /\
     t = fallback_tree "<a(b" /\
     In (fallback_defect "<a(b") ([] ++ tl_all_defects t)).
Proof.
  apply (@parse_postcondition demo_engine "<a(b" empty_kwds []).
  - reflexivity.
  - intros e He. vm_compute in He. injection He as <-. reflexivity.
Defined.

Lemma fallback_defect_exact_witness :
  exists kwds' t,
    @RelayMessageIDHeader_parse demo_engine "<a(b" empty_kwds = Return kwds' /\
    kw_parse_tree kwds' = Some t /\
    tl_defects t =
      [{| defect_class := InvalidHeaderDefect;
          defect_msg := "IndexError for invalid msg-id in '<a(b'" |}] /\
    kw_defects kwds' =
      Some [{| defect_class := InvalidHeaderDefect;
               defect_msg := "IndexError for invalid msg-id in '<a(b'" |}].
Proof.
  apply (@fallback_defect_exact demo_engine "<a(b" empty_kwds []
           {| exc_class := IndexError; exc_msg := "list index out of range" |}).
  - reflexivity.
  - reflexivity.
  - reflexivity.
Defined.

Lemma only_index_error_recovered_witness :
  @value_parser demo_engine "<((((x" =
    Raise {| exc_class := RecursionError;
             exc_msg := "maximum recursion depth exceeded" |} /\
  @RelayMessageIDHeader_parse demo_engine "<((((x" empty_kwds =
    Raise {| exc_class := RecursionError;
             exc_msg := "maximum recursion depth exceeded" |} /\
  @RelayHeaderRegistry_call demo_engine
    (relay_header_factory ∅) "Message-ID" "<((((x" =
    Raise {| exc_class := RecursionError;
             exc_msg := "maximum recursion depth exceeded" |}.
Proof.
  split; [reflexivity |].
  pose proof (proj1 (@only_index_error_recovered demo_engine ∅ "<((((x")
                {| exc_class := RecursionError;
                   exc_msg := "maximum recursion depth exceeded" |}
                empty_kwds eq_refl eq_refl) as [Hparse Hcall].
  split; [exact Hparse | apply Hcall; reflexivity].
Defined.

Lemma fatal_error_fails_construction_witness :
  cls_parse (resolve (relay_header_factory ∅) "message-id") "<((((x" empty_kwds =
    Raise {| exc_class := RecursionError;
             exc_msg := "maximum recursion depth exceeded" |} /\
  @RelayHeaderRegistry_call demo_engine
    (relay_header_factory ∅) "message-id" "<((((x" =
    Raise {| exc_class := RecursionError;
             exc_msg := "maximum recursion depth exceeded" |}.
Proof.
  split; [vm_compute; reflexivity |].
  apply (proj1 (@fatal_error_fails_construction demo_engine
                  (relay_header_factory ∅) "message-id" "<((((x")).
  vm_compute. reflexivity.
Defined.


Lemma resolution_case_insensitive_override_witness :
  lower "x-trace-id" = lower "X-Trace-ID" /\
  resolve (map_to_type (relay_header_factory ∅) "X-Trace-ID"
             (@RelayMessageIDHeader demo_engine)) "x-trace-id" =
  RelayMessageIDHeader.
Proof.
  split; [reflexivity |].
  apply (proj1 (@resolution_case_insensitive_override demo_engine ∅
                  (relay_header_factory ∅) "X-Trace-ID" "x-trace-id"
                  RelayMessageIDHeader "<a(b" eq_refl)).
Defined.


(** * Further properties of the header registry *)

Section RegistryExtras.

Context {E : GrammarEngine}.
Variable default_header_map : gmap string HeaderClass.

(** X1: the construction of a Message-ID header by the relay factory
    raises exactly when the engine's message-id parser raises an error
    that is not an [IndexError], and then it raises that error: an
    [IndexError] of the parser never reaches the caller. *)
Theorem message_id_construction_raises_iff name value e :
  lower name = "message-id" ->
  RelayHeaderRegistry_call (relay_header_factory default_header_map)
    name value = Raise e <->
  value_parser value = Raise e /\ isinstance e IndexError = false.
Proof.
  intros Hn. split.
  - intros Hcall. destruct (value_parser value) as [t|e0] eqn:Hv.
    + erewrite construct_message_id in Hcall;
        [discriminate | exact Hn | | reflexivity].
      apply (parse_success value empty_kwds [] t); auto.
    + destruct (isinstance e0 IndexError) eqn:He.
      * erewrite construct_message_id in Hcall;
          [discriminate | exact Hn | | reflexivity].
        apply (parse_fallback value empty_kwds [] e0); auto.
      * rewrite (construct_message_id_raise _ name value e0) in Hcall.
        -- injection Hcall as ->. split; [reflexivity | exact He].
        -- exact Hn.
        -- apply parse_propagates; assumption.
  - intros [Hv He]. apply construct_message_id_raise; [exact Hn |].
    apply parse_propagates; assumption.
Qed.

(** X2: the assignment to [registry["message-id"]] changes the
    resolution of that name only.  Every spelling of message-id resolves
    to [RelayMessageIDHeader], whatever the library registers for it by
    default; for every other name the relay factory constructs what a
    registry with the library's defaults constructs. *)
Theorem factory_overrides_message_id_only name value :
  (lower name = "message-id" ->
   resolve (relay_header_factory default_header_map) name =
   RelayMessageIDHeader) /\
  (lower name <> "message-id" ->
   resolve (relay_header_factory default_header_map) name =
   resolve (RelayHeaderRegistry_init default_header_map) name /\
   RelayHeaderRegistry_call (relay_header_factory default_header_map)
     name value =
   RelayHeaderRegistry_call (RelayHeaderRegistry_init default_header_map)
     name value).
Proof.
  split.
  - apply resolve_message_id.
  - intros Hn.
    assert (Hr : resolve (relay_header_factory default_header_map) name =
                 resolve (RelayHeaderRegistry_init default_header_map) name).
    { unfold resolve, relay_header_factory. simpl.
      rewrite lookup_insert_ne; [reflexivity | congruence]. }
    split; [exact Hr |].
    unfold RelayHeaderRegistry_call, HeaderRegistry_call, HeaderRegistry_getitem.
    rewrite Hr. reflexivity.
Qed.

(** X3: the unstructured view does not depend on the registrations:
    two registries that both construct an instance for a name and a
    value give it the same view, the header that the unstructured
    parser class builds for them. *)
Theorem view_independent_of_registry self1 self2 name value h1 h2 :
  RelayHeaderRegistry_call self1 name value = Return h1 ->
  RelayHeaderRegistry_call self2 name value = Return h2 ->
  as_unstructured h1 = as_unstructured h2 /\
  as_unstructured h1 =
    Some (fields (unstructured_header "_UnstructuredHeader" name value)).
Proof.
  rewrite !RelayHeaderRegistry_call_eq.
  destruct (HeaderRegistry_call self1 name value); [| discriminate].
  destruct (HeaderRegistry_call self2 name value); [| discriminate].
  intros H1 H2. injection H1 as <-. injection H2 as <-.
  split; reflexivity.
Qed.

(** X4: [parse] needs the [defects] key of its accumulator.  Without
    it, on a value on which the engine returns or raises an
    [IndexError], [parse] raises a [KeyError] instead of returning. *)
Theorem parse_without_defects_key value kwds :
  kw_defects kwds = None ->
  (forall e, value_parser value = Raise e -> isinstance e IndexError = true) ->
  exists e,
    RelayMessageIDHeader_parse value kwds = Raise e /\
    exc_class e = KeyError.
Proof.
  intros Hk Hidx. unfold RelayMessageIDHeader_parse.
  destruct (value_parser value) as [t|e0] eqn:Hv.
  - rewrite (try_except_return _ _ _ t eq_refl). simpl.
    unfold defects_extend. simpl. rewrite Hk. eauto.
  - rewrite (try_except_caught _ _ _ e0 eq_refl (Hidx e0 eq_refl)). simpl.
    unfold defects_extend. simpl. rewrite Hk. eauto.
Qed.

End RegistryExtras.

(** * Properties of the helpers *)

(** ** Splitting and case folding *)

Lemma str_split_cons sep s : exists piece pieces, str_split sep s = piece :: pieces.
Proof.
  induction s as [|c s IH]; simpl; [eauto |].
  destruct (Ascii.eqb c sep); [eauto |].
  destruct IH as (p & ps & ->). eauto.
Qed.

Lemma str_split_no_sep sep s : str_in sep s = false -> str_split sep s = [s].
Proof.
  induction s as [|c s IH]; simpl; [reflexivity |].
  intros H. apply orb_false_iff in H as [Hc Hs].
  rewrite Hc, (IH Hs). reflexivity.
Qed.

Lemma str_split_app sep a b :
  str_in sep a = false ->
  str_split sep (a ++ b)%string =
  (a ++ hd EmptyString (str_split sep b))%string :: tl (str_split sep b).
Proof.
  induction a as [|c a IH].
  - intros _. change (EmptyString ++ b)%string with b.
    destruct (str_split_cons sep b) as (p & ps & ->). reflexivity.
  - intros H. simpl in H. apply orb_false_iff in H as [Hc Ha].
    change (String c a ++ b)%string with (String c (a ++ b)%string).
    simpl. rewrite Hc, (IH Ha). reflexivity.
Qed.

Lemma str_split_pieces_no_sep sep s piece :
  In piece (str_split sep s) -> str_in sep piece = false.
Proof.
  revert piece. induction s as [|c s IH]; simpl; intros piece.
  - intros [<- | []]. reflexivity.
  - destruct (Ascii.eqb c sep) eqn:Hc.
    + intros [<- | Hin]; [reflexivity | auto].
    + destruct (str_split sep s) as [|p ps]; simpl.
      * intros [<- | []]. simpl. rewrite Hc. reflexivity.
      * intros [<- | Hin].
        -- simpl. rewrite Hc. apply IH. left. reflexivity.
        -- apply IH. right. exact Hin.
Qed.

Lemma str_split_pieces_within sep c s piece :
  In piece (str_split sep s) -> str_in c s = false -> str_in c piece = false.
Proof.
  revert piece. induction s as [|a s IH]; simpl; intros piece.
  - intros [<- | []] _. reflexivity.
  - intros Hin H. apply orb_false_iff in H as [Ha Hs].
    destruct (Ascii.eqb a sep).
    + destruct Hin as [<- | Hin]; [reflexivity | auto].
    + destruct (str_split sep s) as [|p ps]; simpl in Hin.
      * destruct Hin as [<- | []]. simpl. rewrite Ha. reflexivity.
      * destruct Hin as [<- | Hin].
        -- simpl. rewrite Ha. apply IH; [left; reflexivity | exact Hs].
        -- apply IH; [right; exact Hin | exact Hs].
Qed.

Lemma str_split_two_pieces sep s :
  str_in sep s = true ->
  exists first second more, str_split sep s = first :: second :: more.
Proof.
  induction s as [|c s IH]; simpl; [discriminate |].
  destruct (Ascii.eqb c sep); simpl.
  - intros _. destruct (str_split_cons sep s) as (p & ps & ->). eauto.
  - intros H. destruct (IH H) as (p & q & r & ->). eauto.
Qed.

Lemma ascii_lower_idem c : ascii_lower (ascii_lower c) = ascii_lower c.
Proof. destruct c as [[] [] [] [] [] [] [] []]; reflexivity. Qed.

Lemma lower_idem s : lower (lower s) = lower s.
Proof.
  induction s as [|c s IH]; simpl; [reflexivity |].
  rewrite ascii_lower_idem, IH. reflexivity.
Qed.

Lemma ascii_lower_comma c : Ascii.eqb (ascii_lower c) "," = Ascii.eqb c ",".
Proof. destruct c as [[] [] [] [] [] [] [] []]; reflexivity. Qed.

Lemma ascii_lower_hyphen c : Ascii.eqb (ascii_lower c) "-" = Ascii.eqb c "-".
Proof. destruct c as [[] [] [] [] [] [] [] []]; reflexivity. Qed.

Section Separator.

(** A separator that case folding neither makes nor removes. *)
Variable sep : ascii.
Hypothesis lower_sep : forall c, Ascii.eqb (ascii_lower c) sep = Ascii.eqb c sep.

Lemma str_in_lower s : str_in sep (lower s) = str_in sep s.
Proof.
  induction s as [|c s IH]; simpl; [reflexivity |].
  rewrite lower_sep, IH. reflexivity.
Qed.

Lemma str_split_lower s : str_split sep (lower s) = map lower (str_split sep s).
Proof.
  induction s as [|c s IH]; simpl; [reflexivity |].
  rewrite lower_sep, IH. destruct (Ascii.eqb c sep); [reflexivity |].
  destruct (str_split sep s); reflexivity.
Qed.

End Separator.

Lemma str_bool_lower s : str_bool (lower s) = str_bool s.
Proof. destruct s; reflexivity. Qed.

Lemma primary_language_get lang :
  dict_get _PRIMARY_LANGUAGE_TO_COUNTRY lang lang =
  if String.eqb lang "en" then "us" else lang.
Proof.
  unfold dict_get, _PRIMARY_LANGUAGE_TO_COUNTRY.
  destruct (String.eqb_spec lang "en") as [-> | Hne].
  - rewrite lookup_singleton_eq. reflexivity.
  - rewrite lookup_singleton_ne; [reflexivity | congruence].
Qed.

(** The guess, by cases on the first entry of the list. *)
Lemma guess_country_cases accept_lang :
  exists rawlang rest,
    str_split "," accept_lang = rawlang :: rest /\
    str_in "," rawlang = false /\
    ((str_in "-" rawlang = false /\
      guess_country_from_accept_lang accept_lang =
      Return (if String.eqb (lower rawlang) "en" then "us" else lower rawlang))
     \/
     (exists first region more,
        str_split "-" rawlang = first :: region :: more /\
        guess_country_from_accept_lang accept_lang = Return (lower region))).
Proof.
  destruct (str_split_cons "," accept_lang) as (rawlang & rest & Hs).
  exists rawlang, rest. split; [exact Hs |].
  assert (Hcomma : str_in "," rawlang = false).
  { apply (str_split_pieces_no_sep "," accept_lang). rewrite Hs. left. reflexivity. }
  split; [exact Hcomma |].
  unfold guess_country_from_accept_lang. rewrite Hs. simpl.
  destruct (str_in "-" rawlang) eqn:Hh.
  - right. destruct (str_split_two_pieces _ _ Hh) as (p & q & r & Hp).
    exists p, q, r. split; [exact Hp |].
    destruct rawlang as [|c raw]; [discriminate |]. simpl str_bool. simpl andb.
    rewrite Hp. reflexivity.
  - left. split; [reflexivity |].
    rewrite andb_false_r. simpl. rewrite primary_language_get. reflexivity.
Qed.

Lemma str_append_nil_r s : (s ++ EmptyString)%string = s.
Proof.
  induction s as [|c s IH]; [reflexivity |].
  change (String c s ++ EmptyString)%string with (String c (s ++ EmptyString)%string).
  rewrite IH. reflexivity.
Qed.

Lemma str_in_app c a b : str_in c (a ++ b)%string = str_in c a || str_in c b.
Proof.
  induction a as [|x a IH]; [reflexivity |].
  change (String x a ++ b)%string with (String x (a ++ b)%string).
  simpl. rewrite IH, orb_assoc. reflexivity.
Qed.

Lemma str_in_bool c s : str_in c s = true -> str_bool s = true.
Proof. destruct s; [discriminate | reflexivity]. Qed.

(** ** The country guessed from Accept-Language *)

(** What the guess returns, whatever the text. *)
Lemma guess_country_shape accept_lang :
  exists cc,
    guess_country_from_accept_lang accept_lang = Return cc /\
    str_in "," cc = false /\
    str_in "-" cc = false /\
    lower cc = cc.
Proof.
  destruct (guess_country_cases accept_lang)
    as (rawlang & rest & Hs & Hcomma & [[Hhyphen ->] | (p & region & more & Hp & ->)]).
  - eexists. split; [reflexivity |].
    destruct (String.eqb (lower rawlang) "en"); [repeat split |].
    rewrite (str_in_lower _ ascii_lower_comma), (str_in_lower _ ascii_lower_hyphen).
    rewrite lower_idem. auto.
  - eexists. split; [reflexivity |].
    assert (Hin : In region (str_split "-" rawlang)).
    { rewrite Hp. right. left. reflexivity. }
    rewrite (str_in_lower _ ascii_lower_comma), (str_in_lower _ ascii_lower_hyphen).
    rewrite lower_idem. repeat split.
    + exact (str_split_pieces_within "-" "," rawlang region Hin Hcomma).
    + exact (str_split_pieces_no_sep "-" rawlang region Hin).
Qed.

(** X5: on ASCII text the guess always returns, without an
    [IndexError], and what it returns is one subtag in lower case: a
    string without a comma and without a hyphen that case folding
    leaves as it is. *)
Theorem guess_country_single_lowercase_subtag accept_lang :
  isascii accept_lang = true ->
  exists cc,
    guess_country_from_accept_lang accept_lang = Return cc /\
    str_in "," cc = false /\
    str_in "-" cc = false /\
    lower cc = cc.
Proof. intros _. apply guess_country_shape. Qed.

(** X6: only the first entry of the list counts: what follows the first
    comma does not change the guess. *)
Theorem guess_country_first_entry_only first rest :
  isascii (first ++ String "," rest)%string = true ->
  str_in "," first = false ->
  guess_country_from_accept_lang (first ++ String "," rest)%string =
  guess_country_from_accept_lang first.
Proof.
  intros _ Hfirst. unfold guess_country_from_accept_lang.
  rewrite (str_split_app _ _ _ Hfirst), (str_split_no_sep _ _ Hfirst).
  simpl str_split. simpl hd. rewrite str_append_nil_r. reflexivity.
Qed.

(** X7: for a tag with a hyphen the guess is the second subtag, in
    lower case, whatever follows it: another subtag, a list of further
    entries, or nothing.  The first subtag, the language, plays no
    part, and a script subtag in second place is taken for the
    country. *)
Theorem guess_country_second_subtag lang region more :
  isascii (lang ++ String "-" (region ++ more))%string = true ->
  str_in "," lang = false -> str_in "-" lang = false ->
  str_in "," region = false -> str_in "-" region = false ->
  match more with
  | EmptyString => True
  | String c _ => c = ","%char \/ c = "-"%char
  end ->
  guess_country_from_accept_lang (lang ++ String "-" (region ++ more))%string =
  Return (lower region).
Proof.
  intros _ Hlc Hlh Hrc Hrh Hmore.
  set (tail := hd EmptyString (str_split "," more)).
  assert (Htail : hd EmptyString (str_split "-" tail) = EmptyString).
  { unfold tail. destruct more as [|c more']; [reflexivity |].
    destruct Hmore as [-> | ->]; simpl; [reflexivity |].
    destruct (str_split "," more'); reflexivity. }
  assert (Hraw : str_split "," (lang ++ String "-" (region ++ more))%string =
                 (lang ++ String "-" (region ++ tail))%string ::
                 tl (str_split "," more)).
  { rewrite (str_split_app _ _ _ Hlc). simpl str_split.
    rewrite (str_split_app _ _ _ Hrc). reflexivity. }
  unfold guess_country_from_accept_lang. rewrite Hraw. simpl.
  assert (Hin : str_in "-" (lang ++ String "-" (region ++ tail))%string = true).
  { rewrite str_in_app. simpl. apply orb_true_r. }
  assert (Hsub : str_split "-" (lang ++ String "-" (region ++ tail))%string =
                 lang :: region :: tl (str_split "-" tail)).
  { rewrite (str_split_app _ _ _ Hlh). simpl str_split. simpl hd. simpl tl.
    rewrite (str_split_app _ _ _ Hrh), Htail, !str_append_nil_r. reflexivity. }
  rewrite Hin, (str_in_bool _ _ Hin), Hsub. reflexivity.
Qed.

(** X8: a tag without a hyphen is kept whole, in lower case, and only
    the tag en is mapped to a country, us.  What follows the language
    in the tag, such as a quality value, is not removed: with it, en is
    not recognised. *)
Theorem guess_country_simple_tag tag :
  isascii tag = true ->
  str_in "," tag = false -> str_in "-" tag = false ->
  guess_country_from_accept_lang tag =
  Return (if String.eqb (lower tag) "en" then "us" else lower tag).
Proof.
  intros _ Hc Hh. unfold guess_country_from_accept_lang.
  rewrite (str_split_no_sep _ _ Hc). simpl.
  rewrite Hh, andb_false_r. simpl. rewrite primary_language_get. reflexivity.
Qed.

(** X9: the guess ignores the case of the letters of the header. *)
Theorem guess_country_ignores_case accept_lang :
  isascii accept_lang = true ->
  guess_country_from_accept_lang (lower accept_lang) =
  guess_country_from_accept_lang accept_lang.
Proof.
  intros _. unfold guess_country_from_accept_lang.
  rewrite (str_split_lower _ ascii_lower_comma).
  destruct (str_split_cons "," accept_lang) as (rawlang & rest & ->). simpl.
  rewrite str_bool_lower, (str_in_lower _ ascii_lower_hyphen).
  destruct (str_bool rawlang && str_in "-" rawlang).
  - rewrite (str_split_lower _ ascii_lower_hyphen).
    destruct (str_split "-" rawlang) as [|p [|q r]]; simpl;
      rewrite ?lower_idem; reflexivity.
  - simpl. rewrite lower_idem. reflexivity.
Qed.

(** ** The country of a request *)

(** The country code of a request, whatever the text of its headers. *)
Lemma get_cc_shape request :
  exists cc, _get_cc_from_request request = Return cc /\ lower cc = cc.
Proof.
  unfold _get_cc_from_request, dict_contains, dict_getitem.
  destruct (headers request !! "X-Client-Region") as [region|].
  - eexists. split; [reflexivity | apply lower_idem].
  - destruct (headers request !! "Accept-Language") as [accept_lang|].
    + destruct (guess_country_shape accept_lang) as (cc & Hcc & _ & _ & Hl).
      exists cc. split; [exact Hcc | exact Hl].
    + exists "us". split; reflexivity.
Qed.

(** X10: the country code of a request is always returned, without a
    [KeyError] or an [IndexError], and it is in lower case, whichever
    header it comes from. *)
Theorem get_cc_lowercase request :
  (forall key value,
     headers request !! key = Some value -> isascii value = true) ->
  exists cc,
    _get_cc_from_request request = Return cc /\ lower cc = cc.
Proof. intros _. apply get_cc_shape. Qed.

(** X11: a request with the X-Client-Region header gets that region, in
    lower case, as its country code, and nothing else in the request
    changes it: Accept-Language is not read, and an empty region gives
    an empty country code. *)
Theorem client_region_takes_precedence request other region :
  isascii region = true ->
  headers request !! "X-Client-Region" = Some region ->
  headers other !! "X-Client-Region" = Some region ->
  _get_cc_from_request request = Return (lower region) /\
  _get_cc_from_request other = _get_cc_from_request request.
Proof.
  intros _ Hr Ho. unfold _get_cc_from_request, dict_contains, dict_getitem.
  rewrite Hr, Ho. split; reflexivity.
Qed.

(** X12: the country information is always returned, with the mapping
    as it was given and its keys; the country is available exactly
    when its code is a key of the mapping, and as the code is in lower
    case, a mapping none of whose keys is in lower case makes no
    country available. *)
Theorem countries_info_available {V : Type} request (mapping : gmap string V) :
  (forall key value,
     headers request !! key = Some value -> isascii value = true) ->
  exists info,
    get_countries_info_from_request_and_mapping request mapping = Return info /\
    _get_cc_from_request request = Return (country_code info) /\
    countries info = dom mapping /\
    plan_country_lang_mapping info = mapping /\
    (available_in_country info = true <->
     is_Some (mapping !! country_code info)) /\
    ((forall key, is_Some (mapping !! key) -> lower key <> key) ->
     available_in_country info = false).
Proof.
  intros _. unfold get_countries_info_from_request_and_mapping.
  destruct (get_cc_shape request) as (cc & -> & Hl). simpl.
  eexists. split; [reflexivity |]. simpl.
  assert (Hav : bool_decide (cc ∈ dom mapping) = true <-> is_Some (mapping !! cc)).
  { rewrite bool_decide_eq_true. apply elem_of_dom. }
  repeat split; try apply Hav.
  intros Hkeys. apply not_true_is_false. intros Ht.
  apply Hav in Ht. exact (Hkeys cc Ht Hl).
Qed.

(** ** Waffle flags in a task *)

Section WaffleProperties.

Variable User : Type.
Variable Flag_get : string -> Flag.
Variable is_active_for_user : Flag -> User -> option bool.
Variable waffle_settings : WaffleSettings.

Lemma percent_positive_spec p :
  percent_positive p = true <-> (0 < p)%Q.
Proof.
  unfold percent_positive. rewrite andb_true_iff, !negb_true_iff. split.
  - intros [_ Hle]. apply Qnot_le_lt. intros H.
    apply Qle_bool_iff in H. congruence.
  - intros Hp. split.
    + destruct (Qeq_bool p 0) eqn:He; [| reflexivity].
      apply Qeq_bool_iff in He. rewrite He in Hp.
      exfalso. exact (Qlt_irrefl 0 Hp).
    + destruct (Qle_bool p 0) eqn:Hle; [| reflexivity].
      apply Qle_bool_iff in Hle. exfalso.
      exact (Qlt_not_le _ _ Hp Hle).
Qed.

(** X13: for a flag that is not in the database the answer is the
    default of the settings, whoever the user is, and no random number
    is drawn; the flag is created, with the default as its [everyone],
    and put in the cache exactly when the settings ask for it. *)
Theorem missing_flag_answers_default draw flag_name user :
  pk_bool (pk (Flag_get flag_name)) = false ->
  let result :=
    flag_is_active_in_task User Flag_get is_active_for_user waffle_settings
      draw flag_name user in
  fst result = Some (FLAG_DEFAULT waffle_settings) /\
  (forall draw' user',
     flag_is_active_in_task User Flag_get is_active_for_user waffle_settings
       draw' flag_name user' = result) /\
  ~ In RandomUniform (snd result) /\
  (forall name everyone,
     In (GetOrCreate name everyone) (snd result) <->
     CREATE_MISSING_FLAGS waffle_settings = true /\
     name = flag_name /\ everyone = FLAG_DEFAULT waffle_settings) /\
  (forall name,
     In (CacheSet name) (snd result) <->
     CREATE_MISSING_FLAGS waffle_settings = true /\ name = flag_name).
Proof.
  intros Hpk result. subst result. unfold flag_is_active_in_task.
  rewrite Hpk. simpl negb. cbv iota.
  split; [reflexivity |]. split; [reflexivity |]. simpl snd.
  destruct (LOG_MISSING_FLAGS waffle_settings) as [level|];
    [destruct (negb (level =? 0)%Z) |];
    destruct (CREATE_MISSING_FLAGS waffle_settings); simpl;
    (split; [| split; intros name; [intros value |]; split]);
    intuition (try discriminate; try congruence).
Qed.

(** X14: for a flag of the database, [everyone] decides before anything
    else: when it is set, the answer is its value for every user and
    every draw, also for a user that the flag lists, and nothing else
    is done. *)
Theorem everyone_overrides draw flag_name user b :
  pk_bool (pk (Flag_get flag_name)) = true ->
  everyone (Flag_get flag_name) = Some b ->
  flag_is_active_in_task User Flag_get is_active_for_user waffle_settings
    draw flag_name user = (Some b, []).
Proof.
  intros Hpk He. unfold flag_is_active_in_task.
  rewrite Hpk, He. destruct b; reflexivity.
Qed.

(** X15: a flag of the database is only read: the check does not log,
    create or cache anything.  It draws a random number at most once,
    and only when [everyone] is not set and the percent is above
    zero. *)
Theorem existing_flag_is_only_read draw flag_name user :
  pk_bool (pk (Flag_get flag_name)) = true ->
  let effects :=
    snd (flag_is_active_in_task User Flag_get is_active_for_user
           waffle_settings draw flag_name user) in
  effects = [] \/
  effects = [RandomUniform] /\
  everyone (Flag_get flag_name) = None /\
  exists p, percent (Flag_get flag_name) = Some p /\ (0 < p)%Q.
Proof.
  intros Hpk. unfold flag_is_active_in_task. rewrite Hpk. simpl.
  destruct (everyone (Flag_get flag_name)) as [[]|]; [left; reflexivity .. |].
  destruct (match user with
            | Some u => is_active_for_user (Flag_get flag_name) u
            | None => None
            end); [left; reflexivity |].
  destruct (percent (Flag_get flag_name)) as [p|]; [| left; reflexivity].
  destruct (percent_positive p) eqn:Hp; [| left; reflexivity].
  right. apply percent_positive_spec in Hp.
  destruct (Qle_bool draw p); simpl; eauto.
Qed.

(** X16: a lower draw keeps a flag active: when the answer is [True]
    for a draw, it is [True] for every draw that is not above it. *)
Theorem lower_draw_keeps_flag_active draw draw' flag_name user :
  (draw' <= draw)%Q ->
  fst (flag_is_active_in_task User Flag_get is_active_for_user
         waffle_settings draw flag_name user) = Some true ->
  fst (flag_is_active_in_task User Flag_get is_active_for_user
         waffle_settings draw' flag_name user) = Some true.
Proof.
  intros Hle. unfold flag_is_active_in_task.
  destruct (negb (pk_bool (pk (Flag_get flag_name)))); [auto |].
  destruct (everyone (Flag_get flag_name)) as [[]|]; [auto .. |].
  destruct (match user with
            | Some u => is_active_for_user (Flag_get flag_name) u
            | None => None
            end); [auto |].
  destruct (percent (Flag_get flag_name)) as [p|]; [| auto].
  destruct (percent_positive p); [| auto].
  destruct (Qle_bool draw p) eqn:Hd; [| discriminate].
  intros _. apply Qle_bool_iff in Hd.
  assert (Hd' : Qle_bool draw' p = true).
  { apply Qle_bool_iff. exact (Qle_trans _ _ _ Hle Hd). }
  rewrite Hd'. reflexivity.
Qed.


End WaffleProperties.

(** * The further properties on examples *)

Lemma message_id_construction_raises_iff_witness :
  lower "Message-ID" = "message-id" /\
  (@RelayHeaderRegistry_call demo_engine (relay_header_factory ∅)
     "Message-ID" "<((((x" =
   Raise {| exc_class := RecursionError;
            exc_msg := "maximum recursion depth exceeded" |} <->
   @value_parser demo_engine "<((((x" =
   Raise {| exc_class := RecursionError;
            exc_msg := "maximum recursion depth exceeded" |} /\
   isinstance {| exc_class := RecursionError;
                 exc_msg := "maximum recursion depth exceeded" |}
     IndexError = false).
Proof.
  split; [reflexivity |].
  apply (@message_id_construction_raises_iff demo_engine ∅ "Message-ID").
  reflexivity.
Defined.

Lemma factory_overrides_message_id_only_witness :
  lower "Subject" <> "message-id" /\
  @RelayHeaderRegistry_call demo_engine
    (relay_header_factory {[ "message-id" := UnstructuredHeader ]})
    "Subject" "hello" =
  @RelayHeaderRegistry_call demo_engine
    (RelayHeaderRegistry_init {[ "message-id" := UnstructuredHeader ]})
    "Subject" "hello" /\
  resolve (relay_header_factory {[ "message-id" := @UnstructuredHeader demo_engine ]})
    "MESSAGE-ID" = RelayMessageIDHeader.
Proof.
  assert (Hne : lower "Subject" <> "message-id") by discriminate.
  split; [exact Hne |]. split.
  - apply (proj2 (@factory_overrides_message_id_only demo_engine
                    {[ "message-id" := UnstructuredHeader ]}
                    "Subject" "hello") Hne).
  - apply (proj1 (@factory_overrides_message_id_only demo_engine
                    {[ "message-id" := UnstructuredHeader ]}
                    "MESSAGE-ID" "hello")).
    reflexivity.
Defined.

Lemma view_independent_of_registry_witness :
  exists h1 h2,
    @RelayHeaderRegistry_call demo_engine (relay_header_factory ∅)
      "message-id" "<a(b" = Return h1 /\
    @RelayHeaderRegistry_call demo_engine
      (map_to_type (relay_header_factory ∅) "Message-ID" UnstructuredHeader)
      "message-id" "<a(b" = Return h2 /\
    fields h1 <> fields h2 /\
    as_unstructured h1 = as_unstructured h2.
Proof.
  eexists _, _.
  split; [vm_compute; reflexivity |].
  split; [vm_compute; reflexivity |].
  split; [discriminate |].
  eapply (@view_independent_of_registry demo_engine
            (relay_header_factory ∅)
            (map_to_type (relay_header_factory ∅) "Message-ID" UnstructuredHeader)
            "message-id" "<a(b");
    vm_compute; reflexivity.
Defined.

Lemma parse_without_defects_key_witness :
  exists e,
    @RelayMessageIDHeader_parse demo_engine "<abc123@example.com>"
      {| kw_parse_tree := None; kw_decoded := None; kw_defects := None |} =
    Raise e /\
    exc_class e = KeyError.
Proof.
  apply (@parse_without_defects_key demo_engine "<abc123@example.com>").
  - reflexivity.
  - intros e He. vm_compute in He. discriminate.
Defined.

Lemma guess_country_single_lowercase_subtag_witness :
  isascii "de-AT,de;q=0.9" = true /\
  exists cc,
    guess_country_from_accept_lang "de-AT,de;q=0.9" = Return cc /\
    str_in "," cc = false /\ str_in "-" cc = false /\ lower cc = cc.
Proof.
  split; [reflexivity |].
  apply (guess_country_single_lowercase_subtag "de-AT,de;q=0.9").
  reflexivity.
Defined.

Lemma guess_country_first_entry_only_witness :
  str_in "," "fr-CA" = false /\
  guess_country_from_accept_lang "fr-CA,fr;q=0.8,en-US;q=0.6" =
  guess_country_from_accept_lang "fr-CA".
Proof.
  split; [reflexivity |].
  apply (guess_country_first_entry_only "fr-CA" "fr;q=0.8,en-US;q=0.6");
    reflexivity.
Defined.

Lemma guess_country_second_subtag_witness :
  guess_country_from_accept_lang "zh-Hant-TW,zh;q=0.9" = Return "hant".
Proof.
  apply (guess_country_second_subtag "zh" "Hant" "-TW,zh;q=0.9");
    try reflexivity.
  right. reflexivity.
Defined.

Lemma guess_country_simple_tag_witness :
  guess_country_from_accept_lang "en;q=0.8" = Return "en;q=0.8" /\
  guess_country_from_accept_lang "EN" = Return "us".
Proof.
  split.
  - apply (guess_country_simple_tag "en;q=0.8"); reflexivity.
  - apply (guess_country_simple_tag "EN"); reflexivity.
Defined.

Lemma guess_country_ignores_case_witness :
  isascii "PT-br" = true /\
  guess_country_from_accept_lang (lower "PT-br") =
  guess_country_from_accept_lang "PT-br".
Proof.
  split; [reflexivity |].
  apply (guess_country_ignores_case "PT-br"). reflexivity.
Defined.

Lemma get_cc_lowercase_witness :
  exists cc,
    _get_cc_from_request {| headers := {[ "Accept-Language" := "es-MX" ]} |} =
    Return cc /\ lower cc = cc.
Proof.
  apply (get_cc_lowercase {| headers := {[ "Accept-Language" := "es-MX" ]} |}).
  intros key value H. simpl in H.
  apply lookup_singleton_Some in H as [_ <-]. reflexivity.
Defined.

Lemma client_region_takes_precedence_witness :
  _get_cc_from_request
    {| headers := {[ "X-Client-Region" := "NL" ]} |} = Return "nl" /\
  _get_cc_from_request
    {| headers := <[ "Accept-Language" := "en-US" ]>
                    {[ "X-Client-Region" := "NL" ]} |} =
  _get_cc_from_request
    {| headers := {[ "X-Client-Region" := "NL" ]} |}.
Proof.
  apply (client_region_takes_precedence
           {| headers := {[ "X-Client-Region" := "NL" ]} |}
           {| headers := <[ "Accept-Language" := "en-US" ]>
                           {[ "X-Client-Region" := "NL" ]} |}
           "NL");
    reflexivity.
Defined.

Lemma countries_info_available_witness :
  exists info,
    get_countries_info_from_request_and_mapping
      {| headers := {[ "X-Client-Region" := "US" ]} |}
      ({[ "US" := 1%nat ]} : gmap string nat) = Return info /\
    country_code info = "us" /\
    available_in_country info = false.
Proof.
  destruct (countries_info_available
              {| headers := {[ "X-Client-Region" := "US" ]} |}
              ({[ "US" := 1%nat ]} : gmap string nat))
    as (info & Hinfo & Hcc & _ & _ & _ & Hupper).
  - intros key value H. simpl in H.
    apply lookup_singleton_Some in H as [_ <-]. reflexivity.
  - exists info. split; [exact Hinfo |]. split.
    + vm_compute in Hcc. injection Hcc as Hcc. symmetry. exact Hcc.
    + apply Hupper. intros key [v Hv].
      apply lookup_singleton_Some in Hv as [<- _]. discriminate.
Defined.

Lemma missing_flag_answers_default_witness :
  pk_bool (pk (demo_flag_get "unknown")) = false /\
  fst (flag_is_active_in_task nat demo_flag_get demo_user_check
         demo_waffle_settings (50 # 1) "unknown" (Some 7%nat)) = Some false.
Proof.
  split; [reflexivity |].
  apply (missing_flag_answers_default nat demo_flag_get demo_user_check
           demo_waffle_settings (50 # 1) "unknown" (Some 7%nat)).
  reflexivity.
Defined.

Lemma everyone_overrides_witness :
  flag_is_active_in_task nat demo_flag_get demo_user_check
    demo_waffle_settings (99 # 1) "everyone_on" None = (Some true, []).
Proof.
  apply (everyone_overrides nat demo_flag_get demo_user_check
           demo_waffle_settings (99 # 1) "everyone_on" None true);
    reflexivity.
Defined.

Lemma existing_flag_is_only_read_witness :
  pk_bool (pk (demo_flag_get "rollout")) = true /\
  (snd (flag_is_active_in_task nat demo_flag_get demo_user_check
          demo_waffle_settings (10 # 1) "rollout" None) = [] \/
   snd (flag_is_active_in_task nat demo_flag_get demo_user_check
          demo_waffle_settings (10 # 1) "rollout" None) = [RandomUniform] /\
   everyone (demo_flag_get "rollout") = None /\
   exists p, percent (demo_flag_get "rollout") = Some p /\ (0 < p)%Q).
Proof.
  split; [reflexivity |].
  apply (existing_flag_is_only_read nat demo_flag_get demo_user_check
           demo_waffle_settings (10 # 1) "rollout" None).
  reflexivity.
Defined.

Lemma lower_draw_keeps_flag_active_witness :
  ((5 # 1) <= (20 # 1))%Q /\
  fst (flag_is_active_in_task nat demo_flag_get demo_user_check
         demo_waffle_settings (5 # 1) "rollout" None) = Some true.
Proof.
  assert (Hle : ((5 # 1) <= (20 # 1))%Q) by (unfold Qle; simpl; lia).
  split; [exact Hle |].
  apply (lower_draw_keeps_flag_active nat demo_flag_get demo_user_check
           demo_waffle_settings (20 # 1) (5 # 1) "rollout" None Hle).
  reflexivity.
Defined.

